(** * ell.configurator: the model registry, scoped overrides and resolution

    A shallow embedding of [src/ell/configurator.py].  The module keeps one
    [Config] object per process.  Python dictionaries are mutable objects, and
    the code both mutates the registry in place ([register_model]) and builds
    override frames with [dict.copy]; the embedding therefore keeps an explicit
    heap of dictionary objects, so that "a frame is a copy, not an alias" is a
    property that is proved and not one that is assumed.

    Threads are modelled by interleaving: every method takes the identity of
    the calling thread, and [threading.local] is a finite map from thread
    identities to the attributes of that thread. *)

From stdpp Require Import base strings gmap list fin_maps.

(** ** Values *)

(** [openai.Client]: an opaque handle, stored and returned by identity. *)
Inductive Client := ClientHandle (ident : nat).

#[global] Instance Client_eq_dec : EqDecision Client.
Proof. solve_decision. Defined.

(** [ell.store.Store]: either the [SQLiteStore] that [set_store] builds from a
    path, or a store object handed in by the caller. *)
Inductive Store := SQLiteStore (path : string) | StoreObject (ident : nat).

#[global] Instance Store_eq_dec : EqDecision Store.
Proof. solve_decision. Defined.

(** The argument of [set_store]: [Union[Store, str]]. *)
Inductive StoreArg := ArgStr (s : string) | ArgStore (s : Store).

(** The values of [default_lm_params] ([Dict[str, Any]]). *)
Inductive ParamValue :=
  | PInt (z : Z)
  | PStr (s : string)
  | PBool (b : bool).

(** Addresses of dictionary objects and identities of threads. *)
Abbreviation loc := nat (only parsing).
Abbreviation ThreadId := nat (only parsing).

(** ** Logging *)

Inductive Level := DEBUG | WARNING.

Record LogRecord := { level : Level; message : string }.

(** [colorama.Fore.LIGHTYELLOW_EX] and [colorama.Style.RESET_ALL]: the ANSI
    sequences ESC[93m and ESC[0m. *)
Definition ESC : string := String (Ascii.ascii_of_nat 27) EmptyString.
Definition LIGHTYELLOW_EX : string := ESC +:+ "[93m".
Definition RESET_ALL : string := ESC +:+ "[0m".

(** ** The configuration object *)

(** The fields of [class Config(BaseModel)].  [registry] is a reference to a
    dictionary object.  [_local] is the [threading.local] object: thread [t]
    has the attribute [stack] exactly when [_local !! t] is [Some stk], and
    [stk] is the Python list, bottom frame first, each frame a reference to a
    dictionary.  The lock [_lock] serialises the methods that take it; in an
    interleaving of atomic method calls it carries no state. *)
Record Config := {
  registry : loc;
  verbose : bool;
  wrapped_logging : bool;
  override_wrapped_logging_width : option Z;
  _store : option Store;
  autocommit : bool;
  lazy_versioning : bool;
  default_lm_params : gmap string ParamValue;
  default_system_prompt : string;
  _default_openai_client : option Client;
  _local : gmap ThreadId (list loc)
}.

(** The state of the process: the dictionary objects, the singleton [config]
    and the records handed to [_config_logger], oldest first. *)
Record State := {
  heap : list (gmap string Client);
  config : Config;
  logged : list LogRecord
}.

(** ** Python computations: state and exceptions *)

Inductive PyExn :=
  | ValueError
  | AttributeError
  | IndexError
  | UserException (tag : nat).

Inductive Outcome (A : Type) :=
  | Returned (a : A)
  | Raised (e : PyExn).
Arguments Returned {A} a.
Arguments Raised {A} e.

Definition Py (A : Type) : Type := State → Outcome A * State.

Definition ret {A} (a : A) : Py A := λ st, (Returned a, st).

Definition raise {A} (e : PyExn) : Py A := λ st, (Raised e, st).

Definition bind {A B} (m : Py A) (k : A → Py B) : Py B :=
  λ st, match m st with
        | (Returned a, st') => k a st'
        | (Raised e, st') => (Raised e, st')
        end.

(** [try: body finally: fin].  The [finally] block always runs; an exception
    it raises replaces the outcome of the body. *)
Definition try_finally {A} (body : Py A) (fin : Py unit) : Py A :=
  λ st, let '(o, st1) := body st in
        match fin st1 with
        | (Returned _, st2) => (o, st2)
        | (Raised e, st2) => (Raised e, st2)
        end.

#[global] Instance Py_ret : MRet Py := @ret.

#[global] Instance Py_bind : MBind Py := λ A B k m, bind m k.

Definition result {A} (m : Py A) (st : State) : Outcome A := fst (m st).
Definition exec {A} (m : Py A) (st : State) : State := snd (m st).

(** ** Field assignment *)

Definition with_verbose (b : bool) (c : Config) : Config :=
  {| registry := registry c; verbose := b; wrapped_logging := wrapped_logging c;
     override_wrapped_logging_width := override_wrapped_logging_width c;
     _store := _store c; autocommit := autocommit c;
     lazy_versioning := lazy_versioning c;
     default_lm_params := default_lm_params c;
     default_system_prompt := default_system_prompt c;
     _default_openai_client := _default_openai_client c; _local := _local c |}.

Definition with_store (s : option Store) (c : Config) : Config :=
  {| registry := registry c; verbose := verbose c;
     wrapped_logging := wrapped_logging c;
     override_wrapped_logging_width := override_wrapped_logging_width c;
     _store := s; autocommit := autocommit c;
     lazy_versioning := lazy_versioning c;
     default_lm_params := default_lm_params c;
     default_system_prompt := default_system_prompt c;
     _default_openai_client := _default_openai_client c; _local := _local c |}.

Definition with_autocommit (b : bool) (c : Config) : Config :=
  {| registry := registry c; verbose := verbose c;
     wrapped_logging := wrapped_logging c;
     override_wrapped_logging_width := override_wrapped_logging_width c;
     _store := _store c; autocommit := b;
     lazy_versioning := lazy_versioning c;
     default_lm_params := default_lm_params c;
     default_system_prompt := default_system_prompt c;
     _default_openai_client := _default_openai_client c; _local := _local c |}.

Definition with_lazy_versioning (b : bool) (c : Config) : Config :=
  {| registry := registry c; verbose := verbose c;
     wrapped_logging := wrapped_logging c;
     override_wrapped_logging_width := override_wrapped_logging_width c;
     _store := _store c; autocommit := autocommit c;
     lazy_versioning := b;
     default_lm_params := default_lm_params c;
     default_system_prompt := default_system_prompt c;
     _default_openai_client := _default_openai_client c; _local := _local c |}.

Definition with_default_lm_params (p : gmap string ParamValue) (c : Config)
  : Config :=
  {| registry := registry c; verbose := verbose c;
     wrapped_logging := wrapped_logging c;
     override_wrapped_logging_width := override_wrapped_logging_width c;
     _store := _store c; autocommit := autocommit c;
     lazy_versioning := lazy_versioning c;
     default_lm_params := p;
     default_system_prompt := default_system_prompt c;
     _default_openai_client := _default_openai_client c; _local := _local c |}.

Definition with_default_system_prompt (p : string) (c : Config) : Config :=
  {| registry := registry c; verbose := verbose c;
     wrapped_logging := wrapped_logging c;
     override_wrapped_logging_width := override_wrapped_logging_width c;
     _store := _store c; autocommit := autocommit c;
     lazy_versioning := lazy_versioning c;
     default_lm_params := default_lm_params c;
     default_system_prompt := p;
     _default_openai_client := _default_openai_client c; _local := _local c |}.

Definition with_local (tl : gmap ThreadId (list loc)) (c : Config) : Config :=
  {| registry := registry c; verbose := verbose c;
     wrapped_logging := wrapped_logging c;
     override_wrapped_logging_width := override_wrapped_logging_width c;
     _store := _store c; autocommit := autocommit c;
     lazy_versioning := lazy_versioning c;
     default_lm_params := default_lm_params c;
     default_system_prompt := default_system_prompt c;
     _default_openai_client := _default_openai_client c; _local := tl |}.

(** State-level helpers: run a change on the [config] object, read or write
    a dictionary object, allocate a dictionary, hand a record to the logger. *)
Definition modify_config (f : Config → Config) : Py unit :=
  λ st, (Returned tt,
         {| heap := heap st; config := f (config st); logged := logged st |}).

Definition dict_at (h : list (gmap string Client)) (l : loc)
  : gmap string Client :=
  default ∅ (h !! l).

Definition store_dict (l : loc) (d : gmap string Client) : Py unit :=
  λ st, (Returned tt,
         {| heap := <[l := d]> (heap st); config := config st;
            logged := logged st |}).

Definition new_dict (d : gmap string Client) : Py loc :=
  λ st, (Returned (length (heap st)),
         {| heap := heap st ++ [d]; config := config st;
            logged := logged st |}).

Definition emit (lvl : Level) (msg : string) : Py unit :=
  λ st, (Returned tt,
         {| heap := heap st; config := config st;
            logged := logged st ++ [{| level := lvl; message := msg |}] |}).

Definition get_config : Py Config := λ st, (Returned (config st), st).

Definition load_dict (l : loc) : Py (gmap string Client) :=
  λ st, (Returned (dict_at (heap st) l), st).

(** ** The methods of [Config] *)

(** The defaults declared in the class body, around a given registry object. *)
Definition fresh_config (r : loc) : Config :=
  {| registry := r; verbose := false; wrapped_logging := true;
     override_wrapped_logging_width := None; _store := None;
     autocommit := false; lazy_versioning := true; default_lm_params := ∅;
     default_system_prompt := "You are a helpful AI assistant.";
     _default_openai_client := None; _local := ∅ |}.

(** [__init__]: [super().__init__()] gives every declared attribute its
    default, [registry] a new empty dictionary ([default_factory=dict]); then
    a new lock and a new [threading.local()] are installed, and a new
    [threading.local()] has no attribute on any thread.  The two private
    attributes are given their defaults with the fields; none of the results
    below about [reset] rests on what a second [__init__] does to them. *)
Definition Config__init__ : Py unit :=
  r ← new_dict ∅;
  modify_config (λ _, fresh_config r).

(** [config = Config()] at import time. *)
Definition initial : State :=
  {| heap := [∅]; config := fresh_config 0; logged := [] |}.

(** [self.registry[model_name] = client]: the registry object is updated in
    place. *)
Definition register_model (model_name : string) (client : Client) : Py unit :=
  c ← get_config;
  d ← load_dict (registry c);
  store_dict (registry c) (<[model_name := client]> d).


(** [stack[-1]] when the thread has the attribute [stack] and the list is
    not empty. *)
Definition top_frame (attr : option (list loc)) : option loc :=
  match attr with
  | Some stk => last stk
  | None => None
  end.

(** The part of [model_registry_override] before [yield]. *)
Definition model_registry_override_enter (tid : ThreadId)
    (overrides : gmap string Client) : Py unit :=
  c ← get_config;
  (if bool_decide (is_Some (_local c !! tid)) then mret tt
   else modify_config (with_local (<[tid := []]> (_local c))));;
  c ← get_config;
  let current_registry :=
    default (registry c) (top_frame (_local c !! tid)) in
  d ← load_dict current_registry;
  new_registry ← new_dict d;
  d' ← load_dict new_registry;
  store_dict new_registry (overrides ∪ d');;
  c ← get_config;
  match _local c !! tid with
  | Some stk =>
      modify_config (with_local (<[tid := stk ++ [new_registry]]> (_local c)))
  | None => raise AttributeError
  end.

(** The [finally] block: [self._local.stack.pop()]. *)
Definition model_registry_override_exit (tid : ThreadId) : Py unit :=
  c ← get_config;
  match _local c !! tid with
  | None => raise AttributeError
  | Some [] => raise IndexError
  | Some stk =>
      modify_config (with_local (<[tid := removelast stk]> (_local c)))
  end.

(** [with config.model_registry_override(overrides): body]. *)
Definition model_registry_override {A} (tid : ThreadId)
    (overrides : gmap string Client) (body : Py A) : Py A :=
  model_registry_override_enter tid overrides;;
  try_finally body (model_registry_override_exit tid).

Definition warning_message (model_name : string) : string :=
  "Warning: A default provider for model '" +:+ model_name +:+
  "' could not be found. Falling back to default OpenAI client from environment variables.".

Definition get_client_for (tid : ThreadId) (model_name : string)
  : Py (option Client * bool) :=
  c ← get_config;
  let current_registry :=
    default (registry c) (top_frame (_local c !! tid)) in
  d ← load_dict current_registry;
  let client := d !! model_name in
  if bool_decide (model_name ∉ dom d) then
    (if verbose c then
       emit WARNING (LIGHTYELLOW_EX +:+ warning_message model_name +:+ RESET_ALL)
     else emit DEBUG (warning_message model_name));;
    mret (_default_openai_client c, true)
  else mret (client, false).

Definition reset (tid : ThreadId) : Py unit :=
  Config__init__;;
  c ← get_config;
  if bool_decide (is_Some (_local c !! tid)) then
    modify_config (with_local (delete tid (_local c)))
  else mret tt.

(** [set_store]; the construction of the [SQLiteStore] from a path is the
    business of the store module and is taken to return. *)
Definition set_store (store : StoreArg) (autocommit_arg : bool) : Py unit :=
  match store with
  | ArgStr path => modify_config (with_store (Some (SQLiteStore path)))
  | ArgStore s => modify_config (with_store (Some s))
  end;;
  c ← get_config;
  modify_config (with_autocommit (autocommit_arg || autocommit c)).


Definition set_default_lm_params (params : gmap string ParamValue) : Py unit :=
  modify_config (with_default_lm_params params).

Definition set_default_system_prompt (prompt : string) : Py unit :=
  modify_config (with_default_system_prompt prompt).

(** [self.default_client = client].  The class declares no field
    [default_client]: its fields are the public ones of the record above, and
    the default client that [get_client_for] reads is the private attribute
    [_default_openai_client].  [Config] is a pydantic model with the default
    [extra] setting, so the assignment to an undeclared public name is refused
    with [ValueError] and nothing is stored. *)
Definition set_default_client (client : Client) : Py unit :=
  raise ValueError.

(** ** The module-level [init] *)

(** A call of [init] by keyword: [None] is an omitted argument.  For the
    arguments whose default is [None], passing [None] is the same call. *)
Record InitCall := {
  kw_store : option StoreArg;
  kw_verbose : option bool;
  kw_autocommit : option bool;
  kw_lazy_versioning : option bool;
  kw_default_lm_params : option (gmap string ParamValue);
  kw_default_system_prompt : option string;
  kw_default_openai_client : option Client
}.

Definition init (call : InitCall) : Py unit :=
  let store := kw_store call in
  let verbose_arg := default false (kw_verbose call) in
  let autocommit_arg := default true (kw_autocommit call) in
  let lazy_versioning_arg := default true (kw_lazy_versioning call) in
  modify_config (with_verbose verbose_arg);;
  modify_config (with_lazy_versioning lazy_versioning_arg);;
  (match store with
   | Some s => set_store s autocommit_arg
   | None => mret tt
   end);;
  (match kw_default_lm_params call with
   | Some p => set_default_lm_params p
   | None => mret tt
   end);;
  (match kw_default_system_prompt call with
   | Some p => set_default_system_prompt p
   | None => mret tt
   end);;
  (match kw_default_openai_client call with
   | Some c => set_default_client c
   | None => mret tt
   end).

(** ** Traces of calls *)

Inductive Call :=
  | CallRegisterModel (model_name : string) (client : Client)
  | CallEnterOverride (overrides : gmap string Client)
  | CallExitOverride
  | CallGetClientFor (model_name : string)
  | CallReset
  | CallSetStore (store : StoreArg) (autocommit_arg : bool)
  | CallSetDefaultLmParams (params : gmap string ParamValue)
  | CallSetDefaultSystemPrompt (prompt : string)
  | CallSetDefaultClient (client : Client)
  | CallInit (call : InitCall).

(** A call made by thread [tid]; the value it returns is dropped, the
    exception it raises is kept. *)
Definition invoke (tid : ThreadId) (c : Call) : Py unit :=
  match c with
  | CallRegisterModel n cl => register_model n cl
  | CallEnterOverride ov => model_registry_override_enter tid ov
  | CallExitOverride => model_registry_override_exit tid
  | CallGetClientFor n => get_client_for tid n;; mret tt
  | CallReset => reset tid
  | CallSetStore s b => set_store s b
  | CallSetDefaultLmParams p => set_default_lm_params p
  | CallSetDefaultSystemPrompt p => set_default_system_prompt p
  | CallSetDefaultClient cl => set_default_client cl
  | CallInit ic => init ic
  end.

(** One atomic step of thread [tid].  The value or exception of the call goes
    to the caller; the state it leaves behind is the one the next step sees. *)
Definition perform (tid : ThreadId) (c : Call) (st : State) : State :=
  exec (invoke tid c) st.

Definition run (trace : list (ThreadId * Call)) (st : State) : State :=
  foldl (λ s step, perform step.1 step.2 s) st trace.

Definition reachable (st : State) : Prop :=
  ∃ trace, st = run trace initial.

(** ** What a thread sees *)

(** The list object [self._local.stack] of a thread; a thread without the
    attribute has no frame. *)
Definition thread_stack (st : State) (tid : ThreadId) : list loc :=
  default [] (_local (config st) !! tid).

(** The dictionary object that [get_client_for] consults for a thread. *)
Definition current_registry (st : State) (tid : ThreadId) : loc :=
  default (registry (config st)) (top_frame (_local (config st) !! tid)).

(** Its contents. *)
Definition effective (st : State) (tid : ThreadId) : gmap string Client :=
  dict_at (heap st) (current_registry st tid).

(** ** Well-formed states

    Every reference points to an allocated dictionary, and no override frame
    is the registry object itself. *)
Definition wf (st : State) : Prop :=
  registry (config st) < length (heap st) ∧
  map_Forall
    (λ _ stk, Forall (λ l, l < length (heap st) ∧ l ≠ registry (config st)) stk)
    (_local (config st)).

#[global] Instance wf_dec st : Decision (wf st).
Proof. unfold wf. apply _. Defined.

Ltac py_simpl :=
  unfold result, exec, mbind, Py_bind, bind, mret, Py_ret, ret, raise,
    get_config, load_dict, new_dict, store_dict, modify_config, emit in *;
  simpl in *.

(** ** Closed forms of the scope steps *)

(** The state after entering an override, in closed form: one dictionary is
    allocated, holding the overrides laid over a copy of what the thread saw,
    and its address is appended to the stack of the calling thread. *)
Definition entered (tid : ThreadId) (overrides : gmap string Client)
    (st : State) : State :=
  {| heap := heap st ++ [overrides ∪ effective st tid];
     config := with_local
                 (<[tid := thread_stack st tid ++ [length (heap st)]]>
                    (_local (config st))) (config st);
     logged := logged st |}.

(** The pair that [get_client_for] computes from the dictionary it consults
    and from the default client. *)
Definition lookup_pair (d : gmap string Client) (dflt : option Client)
    (model_name : string) : option Client * bool :=
  match d !! model_name with
  | Some c => (Some c, false)
  | None => (dflt, true)
  end.

(** The state after [stack.pop()] on a stack [stk ++ [l]]. *)
Definition popped (tid : ThreadId) (stk : list loc) (st : State) : State :=
  {| heap := heap st;
     config := with_local (<[tid := stk]> (_local (config st))) (config st);
     logged := logged st |}.

(** ** Structured bodies *)

(** The code that a thread runs inside a scope, as a tree: it ends, raises,
    makes a call and goes on, or runs a nested [with] block and goes on. *)
Inductive Body :=
  | Done
  | Raise (e : PyExn)
  | Do (c : Call) (rest : Body)
  | With (overrides : gmap string Client) (inner rest : Body).

Fixpoint run_body (tid : ThreadId) (b : Body) : Py unit :=
  match b with
  | Done => mret tt
  | Raise e => raise e
  | Do c rest => invoke tid c;; run_body tid rest
  | With overrides inner rest =>
      model_registry_override tid overrides (run_body tid inner);;
      run_body tid rest
  end.

(** Calls that leave the stacks to the [with] statement: the two halves of
    the context manager are not called by hand, and [reset] is not called. *)
Definition plain_call (c : Call) : bool :=
  match c with
  | CallEnterOverride _ | CallExitOverride | CallReset => false
  | _ => true
  end.

Fixpoint plain (b : Body) : bool :=
  match b with
  | Done | Raise _ => true
  | Do c rest => plain_call c && plain rest
  | With _ inner rest => plain inner && plain rest
  end.


(** ** Concrete states *)

(** A state used to exercise the theorems: ["gpt-x"] is registered with
    client 1, thread 0 is inside [model_registry_override({"b": client 9})],
    thread 1 has entered and left a scope. *)
Definition sample_state : State :=
  run [(0, CallRegisterModel "gpt-x" (ClientHandle 1));
       (0, CallEnterOverride {["b" := ClientHandle 9]});
       (1, CallEnterOverride {["gpt-x" := ClientHandle 5]});
       (1, CallExitOverride)] initial.

(** The invariant is decidable: on a concrete state it is checked by
    evaluation. *)
Ltac check_wf := apply (bool_decide_eq_true_1 _); vm_compute; reflexivity.


(** Thread 0 is inside [model_registry_override({"b": client 9})]; nothing is
    registered. *)
Definition in_scope_state : State :=
  run [(0, CallEnterOverride {["b" := ClientHandle 9]})] initial.


(** The state after [init(verbose=True)]. *)
Definition verbose_state : State :=
  run [(0, CallInit
              {| kw_store := None; kw_verbose := Some true;
                 kw_autocommit := None; kw_lazy_versioning := None;
                 kw_default_lm_params := None;
                 kw_default_system_prompt := None;
                 kw_default_openai_client := None |})] initial.




(** [init(default_openai_client=client 7)]. *)
Definition init_default_client : InitCall :=
  {| kw_store := None; kw_verbose := None; kw_autocommit := None;
     kw_lazy_versioning := None; kw_default_lm_params := None;
     kw_default_system_prompt := None;
     kw_default_openai_client := Some (ClientHandle 7) |}.

(** ["gpt-x"] is registered and thread 1 is inside
    [model_registry_override({"m": client 2})]. *)
Definition other_thread_in_scope : State :=
  run [(0, CallRegisterModel "gpt-x" (ClientHandle 1));
       (1, CallEnterOverride {["m" := ClientHandle 2]})] initial.

(** ** Compositions of calls *)

(** [[config.get_client_for(n) for n in names]] on one thread. *)
Fixpoint resolve_all (tid : ThreadId) (names : list string)
  : Py (list (option Client * bool)) :=
  match names with
  | [] => mret []
  | n :: rest =>
      r ← get_client_for tid n;
      rs ← resolve_all tid rest;
      mret (r :: rs)
  end.

(** The calls that configure or read and neither register a model, nor
    enter or leave a scope, nor reset. *)
Definition settings_call (c : Call) : bool :=
  match c with
  | CallGetClientFor _ | CallSetStore _ _ | CallSetDefaultLmParams _
  | CallSetDefaultSystemPrompt _ | CallSetDefaultClient _ | CallInit _ => true
  | _ => false
  end.

(** A body with two nested scopes, a registration and a failure in the inner
    one. *)
Definition nested_failing_body : Body :=
  Do (CallGetClientFor "gpt-x")
    (With {["a" := ClientHandle 3]}
       (With {["b" := ClientHandle 4]}
          (Do (CallRegisterModel "c" (ClientHandle 5)) (Raise (UserException 2)))
          Done)
       Done).

(** The calls that bind a given name: its registration, and the entry of a
    scope whose overrides contain it. *)
Definition binds (n : string) (c : Call) : bool :=
  match c with
  | CallRegisterModel m _ => bool_decide (m = n)
  | CallEnterOverride overrides => bool_decide (is_Some (overrides !! n))
  | _ => false
  end.

(** No dictionary binds [n], and there is no default client. *)
Definition unbound (n : string) (st : State) : Prop :=
  Forall (λ d, d !! n = None) (heap st)
  ∧ _default_openai_client (config st) = None.

(** * Proofs *)

Lemma wf_initial : wf initial.
Proof.
  split; [simpl; lia|].
  simpl. apply map_Forall_empty.
Qed.

Lemma dict_at_app_old (h : list (gmap string Client)) d l :
  l < length h → dict_at (h ++ [d]) l = dict_at h l.
Proof. intros Hl. unfold dict_at. by rewrite lookup_app_l. Qed.

Lemma dict_at_app_new (h : list (gmap string Client)) d :
  dict_at (h ++ [d]) (length h) = d.
Proof.
  unfold dict_at. rewrite lookup_app_r by lia.
  by rewrite Nat.sub_diag.
Qed.

Lemma insert_app_new (h : list (gmap string Client)) d d' :
  <[length h := d']> (h ++ [d]) = h ++ [d'].
Proof.
  rewrite insert_app_r_alt by lia. by rewrite Nat.sub_diag.
Qed.

Lemma enter_spec tid overrides st :
  model_registry_override_enter tid overrides st
  = (Returned tt, entered tid overrides st).
Proof.
  unfold model_registry_override_enter, entered, effective, current_registry,
    thread_stack.
  py_simpl.
  destruct (_local (config st) !! tid) as [stk|] eqn:Hstk; simpl.
  - rewrite Hstk. simpl. rewrite dict_at_app_new, insert_app_new. done.
  - rewrite !(lookup_insert_eq (_local (config st))). simpl.
    rewrite dict_at_app_new, insert_app_new.
    simpl. by rewrite insert_insert_eq.
Qed.

(** ** Resolution *)

Lemma get_client_for_result tid model_name st :
  result (get_client_for tid model_name) st
  = Returned (lookup_pair (effective st tid)
                (_default_openai_client (config st)) model_name).
Proof.
  unfold get_client_for, lookup_pair, effective, current_registry.
  py_simpl.
  case_bool_decide as Hdom.
  - apply not_elem_of_dom in Hdom. rewrite Hdom.
    by destruct (verbose (config st)).
  - apply elem_of_dom in Hdom as [c Hc].
    by rewrite Hc.
Qed.

Lemma get_client_for_heap tid model_name st :
  heap (exec (get_client_for tid model_name) st) = heap st.
Proof.
  unfold get_client_for. py_simpl.
  case_bool_decide; [|done]. by destruct (verbose (config st)).
Qed.

Lemma get_client_for_config tid model_name st :
  config (exec (get_client_for tid model_name) st) = config st.
Proof.
  unfold get_client_for. py_simpl.
  case_bool_decide; [|done]. by destruct (verbose (config st)).
Qed.

(** What [get_client_for] hands to the logger. *)
Lemma get_client_for_logged tid model_name st :
  logged (exec (get_client_for tid model_name) st)
  = logged st ++
    match effective st tid !! model_name with
    | Some _ => []
    | None =>
        [if verbose (config st)
         then {| level := WARNING;
                 message := LIGHTYELLOW_EX +:+ warning_message model_name
                            +:+ RESET_ALL |}
         else {| level := DEBUG; message := warning_message model_name |}]
    end.
Proof.
  unfold get_client_for, effective, current_registry. py_simpl.
  case_bool_decide as Hdom.
  - apply not_elem_of_dom in Hdom. rewrite Hdom.
    by destruct (verbose (config st)).
  - apply elem_of_dom in Hdom as [c Hc].
    rewrite Hc. simpl. by rewrite app_nil_r.
Qed.

(** Two states in which a thread consults dictionaries with the same
    contents, with the same default client, resolve alike. *)
Lemma resolve_ext tid model_name st st' :
  effective st' tid = effective st tid →
  _default_openai_client (config st') = _default_openai_client (config st) →
  result (get_client_for tid model_name) st'
  = result (get_client_for tid model_name) st.
Proof.
  intros He Hd. rewrite !get_client_for_result. by rewrite He, Hd.
Qed.

(** ** Entering and leaving a scope *)

Lemma entered_stack tid overrides st :
  _local (config (entered tid overrides st)) !! tid
  = Some (thread_stack st tid ++ [length (heap st)]).
Proof. simpl. apply lookup_insert_eq. Qed.

Lemma entered_stack_other tid tid' overrides st :
  tid ≠ tid' →
  _local (config (entered tid overrides st)) !! tid'
  = _local (config st) !! tid'.
Proof. intros Hne. simpl. by apply lookup_insert_ne. Qed.

Lemma entered_current tid overrides st :
  current_registry (entered tid overrides st) tid = length (heap st).
Proof.
  unfold current_registry. rewrite entered_stack. simpl.
  by rewrite last_snoc.
Qed.

(** Copy-and-merge: inside the scope the thread sees the overrides laid over
    what it saw before. *)
Lemma entered_effective tid overrides st :
  effective (entered tid overrides st) tid = overrides ∪ effective st tid.
Proof.
  unfold effective at 1. rewrite entered_current. simpl.
  apply dict_at_app_new.
Qed.

Lemma exit_spec tid stk l st :
  _local (config st) !! tid = Some (stk ++ [l]) →
  model_registry_override_exit tid st = (Returned tt, popped tid stk st).
Proof.
  intros Hstk. unfold model_registry_override_exit, popped. py_simpl.
  rewrite Hstk.
  destruct (stk ++ [l]) as [|x xs] eqn:E.
  { by destruct stk. }
  rewrite <- E. by rewrite removelast_last.
Qed.

(** ** The invariant *)

Lemma wf_frames st tid stk l :
  wf st → _local (config st) !! tid = Some stk → l ∈ stk →
  l < length (heap st) ∧ l ≠ registry (config st).
Proof.
  intros [_ Hall] Hstk Hl.
  specialize (Hall tid stk Hstk). simpl in Hall.
  rewrite Forall_forall in Hall. by apply Hall.
Qed.

Lemma current_registry_cases st tid :
  (thread_stack st tid = [] ∧ current_registry st tid = registry (config st))
  ∨ (∃ stk l, _local (config st) !! tid = Some (stk ++ [l])
              ∧ current_registry st tid = l).
Proof.
  unfold thread_stack, current_registry.
  destruct (_local (config st) !! tid) as [stk|] eqn:Hstk; simpl.
  - destruct (last stk) as [l|] eqn:Hlast; simpl.
    + right. apply last_Some in Hlast as [stk' ->]. by exists stk', l.
    + left. by apply last_None in Hlast.
  - by left.
Qed.

Lemma wf_current st tid : wf st → current_registry st tid < length (heap st).
Proof.
  intros Hwf.
  destruct (current_registry_cases st tid) as [[_ ->]|(stk & l & Hstk & ->)].
  - apply Hwf.
  - eapply wf_frames; [done..|]. set_solver.
Qed.

(** A step that keeps the number of dictionaries, the registry reference and
    the thread-local stacks keeps the invariant. *)
Lemma wf_same st st' :
  length (heap st') = length (heap st) →
  registry (config st') = registry (config st) →
  _local (config st') = _local (config st) →
  wf st → wf st'.
Proof. unfold wf. intros -> -> ->. done. Qed.

Lemma wf_entered tid overrides st : wf st → wf (entered tid overrides st).
Proof.
  intros Hwf. destruct (Hwf) as [Hreg Hall]. split; simpl.
  - rewrite length_app. lia.
  - rewrite length_app. simpl. apply map_Forall_insert_2.
    + apply Forall_app. split.
      * apply Forall_forall. intros l Hl.
        unfold thread_stack in Hl.
        destruct (_local (config st) !! tid) as [stk|] eqn:Hstk; simpl in Hl.
        -- destruct (wf_frames st tid stk l Hwf Hstk Hl). split; [lia|done].
        -- by apply elem_of_nil in Hl.
      * apply Forall_singleton. split; lia.
    + eapply map_Forall_impl; [exact Hall|].
      intros t stk Hstk. simpl in *.
      eapply Forall_impl; [exact Hstk|]. simpl. intros l [? ?]. split; [lia|done].
Qed.

Lemma wf_popped tid stk l st :
  _local (config st) !! tid = Some (stk ++ [l]) → wf st →
  wf (popped tid stk st).
Proof.
  intros Hstk Hwf. destruct (Hwf) as [Hreg Hall]. split; simpl; [done|].
  apply map_Forall_insert_2; [|done].
  specialize (Hall tid _ Hstk). simpl in Hall.
  by apply Forall_app in Hall as [? _].
Qed.

Lemma register_model_spec model_name client st :
  register_model model_name client st
  = (Returned tt,
     {| heap := <[registry (config st) :=
                   <[model_name := client]>
                     (dict_at (heap st) (registry (config st)))]> (heap st);
        config := config st; logged := logged st |}).
Proof. done. Qed.

Lemma reset_spec tid st :
  reset tid st
  = (Returned tt,
     {| heap := heap st ++ [∅]; config := fresh_config (length (heap st));
        logged := logged st |}).
Proof. done. Qed.

Lemma exec_bind {A B} (m : Py A) (k : A → Py B) st :
  exec (x ← m; k x) st
  = match result m st with
    | Returned a => exec (k a) (exec m st)
    | Raised _ => exec m st
    end.
Proof. py_simpl. by destruct (m st) as [[a|e] s]. Qed.

Lemma exec_discard {A} (m : Py A) st : exec (m;; mret tt) st = exec m st.
Proof. py_simpl. by destruct (m st) as [[a|e] s]. Qed.

Lemma wf_perform tid c st : wf st → wf (perform tid c st).
Proof.
  intros Hwf. unfold perform. destruct c; simpl.
  - unfold exec. rewrite register_model_spec. simpl.
    eapply wf_same; [| | |exact Hwf]; simpl; [|done..].
    by rewrite length_insert.
  - unfold exec. rewrite enter_spec. simpl. by apply wf_entered.
  - unfold exec, model_registry_override_exit. py_simpl.
    destruct (_local (config st) !! tid) as [stk|] eqn:Hstk; simpl; [|done].
    destruct stk as [|x xs] using rev_ind; simpl; [done|].
    clear IHxs.
    pose proof (exit_spec tid xs x st Hstk) as Hexit.
    unfold model_registry_override_exit in Hexit. py_simpl.
    rewrite Hstk in Hexit.
    destruct (xs ++ [x]) eqn:E; [by destruct xs|].
    rewrite Hexit. simpl. rewrite <- E in Hstk. by eapply wf_popped.
  - rewrite exec_discard. eapply wf_same; [| | |exact Hwf].
    + by rewrite get_client_for_heap.
    + by rewrite get_client_for_config.
    + by rewrite get_client_for_config.
  - unfold exec. rewrite reset_spec. simpl. split; simpl.
    + rewrite length_app. simpl. lia.
    + apply map_Forall_empty.
  - eapply wf_same; [| | |exact Hwf]; by destruct store.
  - by eapply wf_same; [| | |exact Hwf].
  - by eapply wf_same; [| | |exact Hwf].
  - by eapply wf_same; [| | |exact Hwf].
  - destruct call as [s v a lz p sp dc].
    eapply wf_same; [| | |exact Hwf]; unfold exec, init; py_simpl;
      destruct s as [[]|], p, sp, dc; done.
Qed.

Lemma wf_run trace st : wf st → wf (run trace st).
Proof.
  revert st. induction trace as [|[tid c] trace IH]; intros st Hwf; [done|].
  simpl. apply IH. by apply wf_perform.
Qed.

(** Every state that a program can reach through the methods satisfies the
    invariant. *)
Lemma reachable_wf st : reachable st → wf st.
Proof. intros [trace ->]. apply wf_run, wf_initial. Qed.

(** ** Scopes *)

(** The [with] statement, when the body leaves the stack of the thread as it
    found it: the outcome is the outcome of the body, and one frame is
    popped. *)
Lemma scope_spec {A} tid overrides (body : Py A) st :
  _local (config (exec body (entered tid overrides st))) !! tid
  = Some (thread_stack st tid ++ [length (heap st)]) →
  model_registry_override tid overrides body st
  = (result body (entered tid overrides st),
     popped tid (thread_stack st tid) (exec body (entered tid overrides st))).
Proof.
  intros Hbal. unfold model_registry_override. py_simpl.
  rewrite enter_spec. unfold try_finally.
  destruct (body (entered tid overrides st)) as [o s2] eqn:Hbody. simpl in *.
  by rewrite (exit_spec _ _ _ _ Hbal).
Qed.

Lemma popped_stack tid stk s : thread_stack (popped tid stk s) tid = stk.
Proof. unfold thread_stack. simpl. by rewrite lookup_insert_eq. Qed.

(** After the pop the thread consults what its earlier stack designates:
    the top frame of that stack, or the registry object when it is empty. *)
Lemma popped_current tid stk s :
  current_registry (popped tid stk s) tid
  = default (registry (config s)) (last stk).
Proof. unfold current_registry. simpl. by rewrite lookup_insert_eq. Qed.

Lemma current_registry_stack st tid :
  current_registry st tid
  = default (registry (config st)) (last (thread_stack st tid)).
Proof.
  unfold current_registry, thread_stack.
  by destruct (_local (config st) !! tid).
Qed.

(** Leaving a scope whose body kept the registry reference and the
    dictionaries allocated before entry gives the thread back what it saw. *)
Lemma leave_effective tid st s :
  wf st →
  registry (config s) = registry (config st) →
  (∀ l, l < length (heap st) → dict_at (heap s) l = dict_at (heap st) l) →
  effective (popped tid (thread_stack st tid) s) tid = effective st tid.
Proof.
  intros Hwf Hreg Hold. unfold effective.
  rewrite popped_current, Hreg, <- current_registry_stack. simpl.
  apply Hold. by apply wf_current.
Qed.

Lemma lookup_pair_override (overrides d : gmap string Client) dflt m B :
  overrides !! m = Some B →
  lookup_pair (overrides ∪ d) dflt m = (Some B, false).
Proof.
  intros Hm. unfold lookup_pair.
  by rewrite (lookup_union_Some_l overrides d m B Hm).
Qed.

Lemma lookup_pair_inherit (overrides d : gmap string Client) dflt m :
  overrides !! m = None →
  lookup_pair (overrides ∪ d) dflt m = lookup_pair d dflt m.
Proof.
  intros Hm. unfold lookup_pair. by rewrite lookup_union_r.
Qed.

(** Inside a scope, a name that the overrides bind resolves to its
    override; any other name resolves as before entry. *)
Lemma resolve_entered_override tid overrides st m B :
  overrides !! m = Some B →
  result (get_client_for tid m) (entered tid overrides st)
  = Returned (Some B, false).
Proof.
  intros Hm. rewrite get_client_for_result, entered_effective.
  by erewrite lookup_pair_override.
Qed.

Lemma resolve_entered_inherit tid overrides st m :
  overrides !! m = None →
  result (get_client_for tid m) (entered tid overrides st)
  = result (get_client_for tid m) st.
Proof.
  intros Hm. rewrite !get_client_for_result, entered_effective.
  by rewrite lookup_pair_inherit.
Qed.

(** Scope entry followed at once by scope exit. *)
Lemma enter_exit_resolve tid overrides st m :
  wf st →
  result (model_registry_override_exit tid) (entered tid overrides st)
  = Returned tt ∧
  thread_stack (exec (model_registry_override_exit tid)
                  (entered tid overrides st)) tid = thread_stack st tid ∧
  result (get_client_for tid m)
    (exec (model_registry_override_exit tid) (entered tid overrides st))
  = result (get_client_for tid m) st.
Proof.
  intros Hwf. unfold result, exec.
  rewrite (exit_spec _ _ _ _ (entered_stack tid overrides st)). simpl.
  split; [done|]. split; [apply popped_stack|].
  apply resolve_ext; [|done].
  apply (leave_effective tid st (entered tid overrides st) Hwf); [done|].
  intros l Hl. simpl. by apply dict_at_app_old.
Qed.

(** I4 (isolation): a scope entered on one thread changes neither the stack
    of another thread nor what that thread resolves. *)
Lemma enter_isolated tid tid' overrides st m :
  tid ≠ tid' → wf st →
  thread_stack (entered tid overrides st) tid' = thread_stack st tid'
  ∧ result (get_client_for tid' m) (entered tid overrides st)
    = result (get_client_for tid' m) st.
Proof.
  intros Hne Hwf.
  pose proof (entered_stack_other tid tid' overrides st Hne) as Hother.
  split.
  - unfold thread_stack. by rewrite Hother.
  - apply resolve_ext; [|done]. unfold effective.
    assert (Hcur : current_registry (entered tid overrides st) tid'
                   = current_registry st tid').
    { unfold current_registry. by rewrite Hother. }
    rewrite Hcur. simpl. apply dict_at_app_old. by apply wf_current.
Qed.

(** ** Properties of the configurator *)

Lemma sample_state_reachable : reachable sample_state.
Proof. by eexists. Qed.

Lemma exec_enter tid overrides st :
  exec (model_registry_override_enter tid overrides) st
  = entered tid overrides st.
Proof. unfold exec. by rewrite enter_spec. Qed.

Lemma result_enter tid overrides st :
  result (model_registry_override_enter tid overrides) st = Returned tt.
Proof. unfold result. by rewrite enter_spec. Qed.

(** C4 (scope restoration).  In every well-formed state, and so in every
    reachable one, [with model_registry_override({m: B})] makes
    [get_client_for(m)] return [(B, False)] inside the scope, and once the
    scope has been left [get_client_for(m)] on the same thread returns the
    pair it returned before entry. *)
Theorem scope_restoration tid m B st :
  wf st →
  result (model_registry_override tid {[m := B]} (get_client_for tid m)) st
  = Returned (Some B, false)
  ∧ result (get_client_for tid m)
      (exec (model_registry_override tid {[m := B]} (get_client_for tid m)) st)
    = result (get_client_for tid m) st.
Proof.
  intros Hwf.
  assert (Hbal :
    _local (config (exec (get_client_for tid m) (entered tid {[m := B]} st)))
      !! tid = Some (thread_stack st tid ++ [length (heap st)])).
  { rewrite get_client_for_config. apply entered_stack. }
  unfold result at 1, exec at 1.
  rewrite (scope_spec tid {[m := B]} (get_client_for tid m) st Hbal). simpl.
  split.
  - apply resolve_entered_override. apply lookup_singleton_eq.
  - apply resolve_ext.
    + apply leave_effective; [done|by rewrite get_client_for_config|].
      intros l Hl. rewrite get_client_for_heap. simpl.
      by apply dict_at_app_old.
    + simpl. by rewrite get_client_for_config.
Qed.

Lemma scope_restoration_witness :
  wf sample_state
  ∧ result (model_registry_override 0 {["gpt-x" := ClientHandle 2]}
              (get_client_for 0 "gpt-x")) sample_state
    = Returned (Some (ClientHandle 2), false)
  ∧ result (get_client_for 0 "gpt-x")
      (exec (model_registry_override 0 {["gpt-x" := ClientHandle 2]}
               (get_client_for 0 "gpt-x")) sample_state)
    = result (get_client_for 0 "gpt-x") sample_state.
Proof.
  split; [check_wf|].
  apply (scope_restoration 0 "gpt-x" (ClientHandle 2) sample_state).
  check_wf.
Defined.

(** C5 (nesting).  On one thread, enter a scope overriding [a] with [X] and
    inside it a scope overriding another name [b] with [Y].  Inside the inner
    scope [a] resolves to [(X, False)] and [b] to [(Y, False)].  Leaving the
    inner scope succeeds and puts the stack back as the outer scope left it:
    [b], like every name, resolves as it did before the inner scope was
    entered, [a] still resolves to [(X, False)], and every name other than
    [a] resolves as it did before the outer scope was entered. *)
Theorem nesting_composes tid a b X Y st :
  wf st → a ≠ b →
  let s1 := exec (model_registry_override_enter tid {[a := X]}) st in
  let s2 := exec (model_registry_override_enter tid {[b := Y]}) s1 in
  let s3 := exec (model_registry_override_exit tid) s2 in
  result (get_client_for tid a) s2 = Returned (Some X, false)
  ∧ result (get_client_for tid b) s2 = Returned (Some Y, false)
  ∧ result (model_registry_override_exit tid) s2 = Returned tt
  ∧ result (get_client_for tid b) s3 = result (get_client_for tid b) s1
  ∧ result (get_client_for tid a) s3 = Returned (Some X, false)
  ∧ thread_stack s3 tid = thread_stack s1 tid
  ∧ (∀ n, result (get_client_for tid n) s3 = result (get_client_for tid n) s1)
  ∧ (∀ n, n ≠ a →
       result (get_client_for tid n) s3 = result (get_client_for tid n) st).
Proof.
  intros Hwf Hab. simpl. rewrite !exec_enter.
  set (s1 := entered tid {[a := X]} st).
  assert (Hwf1 : wf s1) by by apply wf_entered.
  destruct (enter_exit_resolve tid {[b := Y]} s1 a Hwf1) as (Hexit & Hstk & Ha).
  assert (Ha1 : result (get_client_for tid a) s1 = Returned (Some X, false)).
  { apply resolve_entered_override, lookup_singleton_eq. }
  assert (Hall : ∀ n,
    result (get_client_for tid n)
      (exec (model_registry_override_exit tid) (entered tid {[b := Y]} s1))
    = result (get_client_for tid n) s1).
  { intros n. by apply enter_exit_resolve. }
  repeat split; try done.
  - rewrite resolve_entered_inherit; [done|]. by apply lookup_singleton_ne.
  - apply resolve_entered_override, lookup_singleton_eq.
  - by rewrite Ha.
  - intros n Hn. rewrite Hall. apply resolve_entered_inherit.
    by apply lookup_singleton_ne.
Qed.

Lemma nesting_composes_witness :
  wf sample_state ∧ "a" ≠ "b"
  ∧ let s1 := exec (model_registry_override_enter 0 {["a" := ClientHandle 3]})
                sample_state in
    let s2 := exec (model_registry_override_enter 0 {["b" := ClientHandle 4]})
                s1 in
    let s3 := exec (model_registry_override_exit 0) s2 in
    result (get_client_for 0 "a") s2 = Returned (Some (ClientHandle 3), false)
    ∧ result (get_client_for 0 "b") s2 = Returned (Some (ClientHandle 4), false)
    ∧ result (get_client_for 0 "b") s3 = Returned (Some (ClientHandle 9), false)
    ∧ result (get_client_for 0 "a") s3 = Returned (Some (ClientHandle 3), false).
Proof.
  assert (Hwf : wf sample_state) by check_wf.
  assert (Hne : "a" ≠ "b") by (vm_compute; discriminate).
  split; [exact Hwf|]. split; [exact Hne|].
  destruct (nesting_composes 0 "a" "b" (ClientHandle 3) (ClientHandle 4)
              sample_state Hwf Hne) as (Ha & Hb & _ & Hb3 & Ha3 & _).
  simpl. split; [exact Ha|]. split; [exact Hb|]. split; [|exact Ha3].
  simpl in Hb3. rewrite Hb3. vm_compute. reflexivity.
Defined.



(** ** Registration *)

Lemma exec_register model_name client st :
  exec (register_model model_name client) st
  = {| heap := <[registry (config st) :=
                  <[model_name := client]>
                    (dict_at (heap st) (registry (config st)))]> (heap st);
       config := config st; logged := logged st |}.
Proof. done. Qed.

Section Registration.

Variables (model_name : string) (client : Client) (st : State).
Hypothesis Hwf : wf st.

Let st' : State := exec (register_model model_name client) st.

(** [register_model] writes one dictionary object, the registry; a frame is
    another object. *)
Lemma register_frame_content tid stk l :
  _local (config st) !! tid = Some stk → l ∈ stk →
  dict_at (heap st') l = dict_at (heap st) l.
Proof.
  intros Hstk Hl. destruct (wf_frames st tid stk l Hwf Hstk Hl) as [_ Hne].
  subst st'. rewrite exec_register. simpl. unfold dict_at.
  by rewrite list_lookup_insert_ne.
Qed.

Lemma register_current tid :
  current_registry st' tid = current_registry st tid.
Proof. done. Qed.

(** A thread inside a scope: the registration is not seen. *)
Lemma register_effective_frame tid :
  thread_stack st tid ≠ [] → effective st' tid = effective st tid.
Proof.
  intros Hne. unfold effective. rewrite register_current.
  destruct (current_registry_cases st tid) as [[Hnil _]|(stk & l & Hstk & ->)];
    [done|].
  eapply register_frame_content; [done|]. set_solver.
Qed.

(** A thread outside every scope: the registration is seen. *)
Lemma register_effective_global tid :
  thread_stack st tid = [] →
  effective st' tid = <[model_name := client]> (effective st tid).
Proof.
  intros Hnil. unfold effective.
  rewrite register_current, current_registry_stack, Hnil. simpl.
  unfold dict_at at 1. rewrite list_lookup_insert_eq; [done|apply Hwf].
Qed.

Lemma resolve_after_register_global tid :
  thread_stack st tid = [] →
  result (get_client_for tid model_name) st' = Returned (Some client, false).
Proof.
  intros Hnil.
  rewrite get_client_for_result, register_effective_global by done.
  unfold lookup_pair. by rewrite lookup_insert_eq.
Qed.

Lemma resolve_after_register_frame tid m :
  thread_stack st tid ≠ [] →
  result (get_client_for tid m) st' = result (get_client_for tid m) st.
Proof.
  intros Hne. apply resolve_ext; [|done].
  by apply register_effective_frame.
Qed.

End Registration.

(** C7 (frames are frozen snapshots).  [register_model] returns, leaves
    every thread's stack as it is and leaves the contents of every frame on
    every stack as they are, so that a thread inside a scope resolves every
    name as it did before the call; a thread whose stack is empty resolves
    the registered name to the new client at once. *)
Theorem frames_frozen model_name client st :
  wf st →
  let st' := exec (register_model model_name client) st in
  result (register_model model_name client) st = Returned tt
  ∧ _local (config st') = _local (config st)
  ∧ (∀ tid stk l, _local (config st) !! tid = Some stk → l ∈ stk →
       dict_at (heap st') l = dict_at (heap st) l)
  ∧ (∀ tid m, thread_stack st tid ≠ [] →
       result (get_client_for tid m) st' = result (get_client_for tid m) st)
  ∧ (∀ tid, thread_stack st tid = [] →
       result (get_client_for tid model_name) st'
       = Returned (Some client, false)).
Proof.
  intros Hwf. simpl. split; [done|]. split; [done|]. split; [|split].
  - intros tid stk l Hstk Hl. by eapply register_frame_content.
  - intros tid m Hne. by apply resolve_after_register_frame.
  - intros tid Hnil. by apply resolve_after_register_global.
Qed.

Lemma frames_frozen_witness :
  wf sample_state
  ∧ result (get_client_for 0 "gpt-x")
      (exec (register_model "gpt-x" (ClientHandle 6)) sample_state)
    = result (get_client_for 0 "gpt-x") sample_state
  ∧ result (get_client_for 1 "gpt-x")
      (exec (register_model "gpt-x" (ClientHandle 6)) sample_state)
    = Returned (Some (ClientHandle 6), false).
Proof.
  assert (Hwf : wf sample_state) by check_wf.
  destruct (frames_frozen "gpt-x" (ClientHandle 6) sample_state Hwf)
    as (_ & _ & _ & Hframe & Hglobal).
  split; [exact Hwf|]. split.
  - apply Hframe. vm_compute. discriminate.
  - apply Hglobal. vm_compute. reflexivity.
Defined.

(** C9 as the specification words it does not hold: a thread inside a scope
    whose top frame has no entry for the name does not see the registration.
    Thread 0 is inside a scope that overrides ["b"]; after
    [register_model("a", client 1)] it still resolves ["a"] by fallback. *)
Lemma explicit_wins_counterexample :
  ¬ (∀ st tid name A,
       reachable st →
       (thread_stack st tid = []
        ∨ ∃ top, last (thread_stack st tid) = Some top
                 ∧ dict_at (heap st) top !! name = None) →
       result (get_client_for tid name) (exec (register_model name A) st)
       = Returned (Some A, false)).
Proof.
  intros Hclaim.
  specialize (Hclaim in_scope_state 0 "a" (ClientHandle 1)).
  assert (Hfalse :
    result (get_client_for 0 "a")
      (exec (register_model "a" (ClientHandle 1)) in_scope_state)
    = Returned (None, true)) by (vm_compute; reflexivity).
  rewrite Hfalse in Hclaim.
  assert (Returned (None, true) = Returned (Some (ClientHandle 1), false))
    as Habs; [|discriminate Habs].
  apply Hclaim.
  - by eexists.
  - right. exists 1. split; vm_compute; reflexivity.
Qed.

(** C9 (explicit wins), amended.  After [register_model(name, A)],
    [get_client_for(name)] returns [(A, False)] on every thread whose
    override stack is empty.  On a thread inside a scope the top frame alone
    decides: the call returns what it returned before the registration. *)
Theorem explicit_wins name A tid st :
  wf st →
  (thread_stack st tid = [] →
     result (get_client_for tid name) (exec (register_model name A) st)
     = Returned (Some A, false))
  ∧ (thread_stack st tid ≠ [] →
     result (get_client_for tid name) (exec (register_model name A) st)
     = result (get_client_for tid name) st).
Proof.
  intros Hwf. split; intros Hstk.
  - by apply resolve_after_register_global.
  - by apply resolve_after_register_frame.
Qed.

Lemma explicit_wins_witness :
  wf sample_state
  ∧ thread_stack sample_state 1 = []
  ∧ result (get_client_for 1 "claude") 
      (exec (register_model "claude" (ClientHandle 8)) sample_state)
    = Returned (Some (ClientHandle 8), false)
  ∧ thread_stack sample_state 0 ≠ []
  ∧ result (get_client_for 0 "claude")
      (exec (register_model "claude" (ClientHandle 8)) sample_state)
    = result (get_client_for 0 "claude") sample_state.
Proof.
  assert (Hwf : wf sample_state) by check_wf.
  assert (H1 : thread_stack sample_state 1 = []) by (vm_compute; reflexivity).
  assert (H0 : thread_stack sample_state 0 ≠ []) by (vm_compute; discriminate).
  split; [exact Hwf|]. split; [exact H1|]. split.
  - apply (explicit_wins "claude" (ClientHandle 8) 1 sample_state Hwf), H1.
  - split; [exact H0|].
    apply (explicit_wins "claude" (ClientHandle 8) 0 sample_state Hwf), H0.
Defined.

(** ** Logging on the fallback path *)

(** C8 as the specification words it does not hold: the text handed to the
    logger at WARNING is not the text handed to it at DEBUG, it is that text
    between two colour sequences. *)
Lemma fallback_message_counterexample :
  (level <$> logged (exec (get_client_for 0 "unknown-model") verbose_state))
  = [WARNING]
  ∧ (level <$> logged (exec (get_client_for 0 "unknown-model") initial))
    = [DEBUG]
  ∧ (message <$> logged (exec (get_client_for 0 "unknown-model") verbose_state))
    ≠ (message <$> logged (exec (get_client_for 0 "unknown-model") initial)).
Proof.
  split; [vm_compute; reflexivity|]. split; [vm_compute; reflexivity|].
  vm_compute. discriminate.
Qed.

(** C8 (fallback logging), amended.  When the name is absent from the
    dictionary consulted, [get_client_for] returns the default client with
    [True], raises nothing, and hands exactly one record to the logger: at
    WARNING, with the warning text between [LIGHTYELLOW_EX] and [RESET_ALL],
    when [verbose] is set, and at DEBUG with the plain warning text
    otherwise.  When the name is present it returns the entry with [False]
    and logs nothing. *)
Theorem fallback_logging tid name st :
  let st' := exec (get_client_for tid name) st in
  (effective st tid !! name = None →
     result (get_client_for tid name) st
     = Returned (_default_openai_client (config st), true)
     ∧ logged st'
       = logged st ++
         [if verbose (config st)
          then {| level := WARNING;
                  message := LIGHTYELLOW_EX +:+ warning_message name
                             +:+ RESET_ALL |}
          else {| level := DEBUG; message := warning_message name |}])
  ∧ (∀ c, effective st tid !! name = Some c →
       result (get_client_for tid name) st = Returned (Some c, false)
       ∧ logged st' = logged st).
Proof.
  simpl. split.
  - intros Hnone. rewrite get_client_for_result, get_client_for_logged.
    unfold lookup_pair. by rewrite Hnone.
  - intros c Hsome. rewrite get_client_for_result, get_client_for_logged.
    unfold lookup_pair. rewrite Hsome. by rewrite app_nil_r.
Qed.

Lemma fallback_logging_witness :
  effective sample_state 1 !! "unknown-model" = None
  ∧ effective sample_state 1 !! "gpt-x" = Some (ClientHandle 1)
  ∧ result (get_client_for 1 "unknown-model") sample_state
    = Returned (None, true)
  ∧ length (logged (exec (get_client_for 1 "unknown-model") sample_state))
    = S (length (logged sample_state))
  ∧ logged (exec (get_client_for 1 "gpt-x") sample_state)
    = logged sample_state.
Proof.
  assert (Hnone : effective sample_state 1 !! "unknown-model" = None)
    by (vm_compute; reflexivity).
  assert (Hsome : effective sample_state 1 !! "gpt-x" = Some (ClientHandle 1))
    by (vm_compute; reflexivity).
  destruct (fallback_logging 1 "unknown-model" sample_state) as [Hfb _].
  destruct (fallback_logging 1 "gpt-x" sample_state) as [_ Hhit].
  destruct (Hfb Hnone) as [Hres Hlog].
  destruct (Hhit _ Hsome) as [_ Hquiet].
  split; [exact Hnone|]. split; [exact Hsome|]. split; [exact Hres|].
  split; [|exact Hquiet].
  rewrite Hlog, length_app. simpl. lia.
Defined.

(** ** The store and [init] *)






Lemma init_spec call st :
  exec (init call) st
  = exec (match kw_default_system_prompt call with
          | Some p => set_default_system_prompt p
          | None => mret tt
          end)
      (exec (match kw_default_lm_params call with
             | Some p => set_default_lm_params p
             | None => mret tt
             end)
         (exec (match kw_store call with
                | Some s => set_store s (default true (kw_autocommit call))
                | None => mret tt
                end)
            (exec (modify_config
                     (with_lazy_versioning
                        (default true (kw_lazy_versioning call))))
               (exec (modify_config
                        (with_verbose (default false (kw_verbose call))))
                  st)))).
Proof.
  destruct call as [s v a lz p sp dc]. unfold init. py_simpl.
  destruct s as [[]|], p, sp, dc; done.
Qed.



(** ** The default client *)

(** [set_default_client] raises and changes nothing. *)
Lemma set_default_client_spec client st :
  set_default_client client st = (Raised ValueError, st).
Proof. done. Qed.

(** C1 (fallback to the default client that was set): the code does not do
    it.  [set_default_client(C)] stores nothing in [_default_openai_client],
    the attribute that [get_client_for] falls back to: in every state the
    call raises [ValueError] and leaves the state as it was.  On a new
    [Config], after [set_default_client(client 7)] or after
    [init(default_openai_client=client 7)], an unregistered name resolves to
    [(None, True)]. *)
Theorem default_client_is_not_stored :
  (∀ client st,
     result (set_default_client client) st = Raised ValueError
     ∧ exec (set_default_client client) st = st)
  ∧ result (get_client_for 0 "gpt-x")
      (exec (set_default_client (ClientHandle 7)) initial)
    = Returned (None, true)
  ∧ result (init init_default_client) initial = Raised ValueError
  ∧ result (get_client_for 0 "gpt-x") (exec (init init_default_client) initial)
    = Returned (None, true).
Proof.
  split; [done|]. repeat split; vm_compute; reflexivity.
Qed.

(** ** Reset *)

Lemma exec_reset tid st :
  exec (reset tid) st
  = {| heap := heap st ++ [∅]; config := fresh_config (length (heap st));
       logged := logged st |}.
Proof. done. Qed.

(** C2 (reset keeps the stacks of other threads): the code does not do it.
    [reset] runs [__init__], which installs a new [threading.local()]: in
    every state the call returns with a new empty registry, the flags at
    their defaults, and no stack on any thread.  With thread 1 inside a
    scope that overrides ["m"], a [reset] on thread 0 makes thread 1 resolve
    ["m"] by fallback, and the exit of its scope raises [AttributeError]. *)
Theorem reset_drops_every_stack :
  (∀ tid st,
     let st' := exec (reset tid) st in
     result (reset tid) st = Returned tt
     ∧ dict_at (heap st') (registry (config st')) = ∅
     ∧ verbose (config st') = false
     ∧ autocommit (config st') = false
     ∧ lazy_versioning (config st') = true
     ∧ _local (config st') = ∅)
  ∧ reachable other_thread_in_scope
  ∧ result (get_client_for 1 "m") other_thread_in_scope
    = Returned (Some (ClientHandle 2), false)
  ∧ thread_stack other_thread_in_scope 1 = [1]
  ∧ thread_stack (exec (reset 0) other_thread_in_scope) 1 = []
  ∧ result (get_client_for 1 "m") (exec (reset 0) other_thread_in_scope)
    = Returned (None, true)
  ∧ result (model_registry_override_exit 1)
      (exec (reset 0) other_thread_in_scope)
    = Raised AttributeError.
Proof.
  split.
  - intros tid st. simpl. rewrite exec_reset. simpl.
    repeat split. apply dict_at_app_new.
  - split; [by eexists|]. repeat split; vm_compute; reflexivity.
Qed.

(** ** Stack discipline of structured bodies *)

Lemma plain_call_local tid c st :
  plain_call c = true →
  _local (config (exec (invoke tid c) st)) = _local (config st).
Proof.
  destruct c; simpl; try discriminate; intros _.
  - done.
  - by rewrite exec_discard, get_client_for_config.
  - by destruct store.
  - done.
  - done.
  - done.
  - rewrite init_spec. destruct call as [s v a lz p sp dc]. simpl.
    destruct s as [[]|], p, sp; done.
Qed.

(** I3 (stack discipline): a structured body, however it ends, leaves the
    stack of its thread as it found it, in a well-formed state. *)
Lemma plain_body_balanced tid b :
  plain b = true →
  ∀ st stk, wf st → _local (config st) !! tid = Some stk →
    wf (exec (run_body tid b) st)
    ∧ _local (config (exec (run_body tid b) st)) !! tid = Some stk.
Proof.
  induction b as [|e|c rest IH|overrides inner IHinner rest IHrest];
    simpl; intros Hplain st stk Hwf Hstk.
  - done.
  - done.
  - apply andb_prop in Hplain as [Hc Hrest].
    pose proof (wf_perform tid c st Hwf) as Hwf1.
    pose proof (plain_call_local tid c st Hc) as Hloc.
    unfold perform in Hwf1. rewrite exec_bind.
    destruct (result (invoke tid c) st) as [[]|e].
    + apply (IH Hrest _ stk Hwf1). by rewrite Hloc.
    + split; [done|]. by rewrite Hloc.
  - apply andb_prop in Hplain as [Hinner Hrest].
    assert (Hstack : thread_stack st tid = stk).
    { unfold thread_stack. by rewrite Hstk. }
    destruct (IHinner Hinner (entered tid overrides st)
                (stk ++ [length (heap st)])) as [Hwf2 Hbal].
    { by apply wf_entered. }
    { by rewrite entered_stack, Hstack. }
    rewrite <- Hstack in Hbal.
    pose proof (scope_spec tid overrides (run_body tid inner) st Hbal) as Hscope.
    assert (Hwf3 : wf (popped tid (thread_stack st tid)
                         (exec (run_body tid inner) (entered tid overrides st)))).
    { eapply wf_popped; [exact Hbal|exact Hwf2]. }
    assert (Hr :
      result (model_registry_override tid overrides (run_body tid inner)) st
      = result (run_body tid inner) (entered tid overrides st)).
    { unfold result at 1. by rewrite Hscope. }
    assert (He :
      exec (model_registry_override tid overrides (run_body tid inner)) st
      = popped tid (thread_stack st tid)
          (exec (run_body tid inner) (entered tid overrides st))).
    { unfold exec at 1. by rewrite Hscope. }
    rewrite exec_bind, Hr, He.
    destruct (result (run_body tid inner) (entered tid overrides st))
      as [[]|e]; simpl.
    + apply (IHrest Hrest _ stk Hwf3). rewrite <- Hstack.
      apply lookup_insert_eq.
    + split; [exact Hwf3|]. rewrite <- Hstack. apply lookup_insert_eq.
Qed.

(** The guaranteed pop for structured bodies: when such a body raises, the
    block raises the same exception with the stack of the thread as it was
    before entry. *)
Lemma plain_body_guaranteed_pop tid overrides b e st :
  plain b = true → wf st →
  result (run_body tid b) (entered tid overrides st) = Raised e →
  result (model_registry_override tid overrides (run_body tid b)) st = Raised e
  ∧ thread_stack
      (exec (model_registry_override tid overrides (run_body tid b)) st) tid
    = thread_stack st tid.
Proof.
  intros Hplain Hwf Hraise.
  destruct (plain_body_balanced tid b Hplain (entered tid overrides st)
              (thread_stack st tid ++ [length (heap st)])) as [Hwf2 Hbal].
  { by apply wf_entered. }
  { apply entered_stack. }
  unfold result at 1, exec at 1.
  rewrite (scope_spec tid overrides (run_body tid b) st Hbal). simpl.
  split; [done|apply popped_stack].
Qed.

(** * Further properties *)

(** ** Copy and merge *)

(** X1 (copy and merge).  Inside [model_registry_override(overrides)], for
    any dictionary of overrides, a name bound by the overrides resolves to
    its override with [False], and every other name resolves as it did
    before entry; with the empty dictionary nothing changes. *)
Theorem override_merge tid overrides st m :
  result (get_client_for tid m)
    (exec (model_registry_override_enter tid overrides) st)
  = match overrides !! m with
    | Some c => Returned (Some c, false)
    | None => result (get_client_for tid m) st
    end
  ∧ result (get_client_for tid m) (exec (model_registry_override_enter tid ∅) st)
    = result (get_client_for tid m) st.
Proof.
  rewrite !exec_enter. split.
  - destruct (overrides !! m) as [c|] eqn:Hm.
    + by apply resolve_entered_override.
    + by apply resolve_entered_inherit.
  - apply resolve_entered_inherit, lookup_empty.
Qed.

Lemma exec_exit_entered tid overrides st :
  exec (model_registry_override_exit tid) (entered tid overrides st)
  = popped tid (thread_stack st tid) (entered tid overrides st).
Proof.
  unfold exec.
  by rewrite (exit_spec _ _ _ _ (entered_stack tid overrides st)).
Qed.

(** X2 (an inner scope shadows the outer one and gives it back).  With two
    nested scopes on one thread, for any two dictionaries of overrides, a
    name resolves inside the inner scope to the inner override if there is
    one, else to the outer override if there is one, else as before both.
    Leaving the inner scope gives the resolution of the outer scope, and
    leaving the outer scope gives the resolution from before both; neither
    exit raises. *)
Theorem inner_shadows_outer tid ov1 ov2 st m :
  wf st →
  let s1 := exec (model_registry_override_enter tid ov1) st in
  let s2 := exec (model_registry_override_enter tid ov2) s1 in
  let s3 := exec (model_registry_override_exit tid) s2 in
  let s4 := exec (model_registry_override_exit tid) s3 in
  result (get_client_for tid m) s2
  = match ov2 !! m with
    | Some c => Returned (Some c, false)
    | None =>
        match ov1 !! m with
        | Some c => Returned (Some c, false)
        | None => result (get_client_for tid m) st
        end
    end
  ∧ result (model_registry_override_exit tid) s2 = Returned tt
  ∧ result (get_client_for tid m) s3 = result (get_client_for tid m) s1
  ∧ result (model_registry_override_exit tid) s3 = Returned tt
  ∧ result (get_client_for tid m) s4 = result (get_client_for tid m) st
  ∧ thread_stack s4 tid = thread_stack st tid.
Proof.
  intros Hwf. simpl. rewrite !exec_enter.
  set (s1 := entered tid ov1 st).
  assert (Hwf1 : wf s1) by by apply wf_entered.
  destruct (enter_exit_resolve tid ov2 s1 m Hwf1) as (Hexit & Hstk & Hm).
  rewrite exec_exit_entered in *.
  assert (Hs3 : _local (config (popped tid (thread_stack s1 tid)
                                  (entered tid ov2 s1))) !! tid
                = Some (thread_stack st tid ++ [length (heap st)])).
  { simpl. rewrite (lookup_insert_eq (<[tid:=_]> _)).
    unfold thread_stack at 1. subst s1. by rewrite entered_stack. }
  split; [|split; [done|split; [done|]]].
  - destruct (ov2 !! m) as [c|] eqn:H2.
    + by apply resolve_entered_override.
    + rewrite resolve_entered_inherit by done. subst s1.
      destruct (ov1 !! m) as [c|] eqn:H1.
      * by apply resolve_entered_override.
      * by apply resolve_entered_inherit.
  - unfold result at 1, exec at 1 2.
    rewrite (exit_spec _ _ _ _ Hs3). simpl.
    split; [done|]. split; [|apply popped_stack].
    apply resolve_ext; [|done]. apply leave_effective; [done|done|].
    intros l Hl. simpl. rewrite dict_at_app_old.
    + by apply dict_at_app_old.
    + rewrite length_app. lia.
Qed.

Lemma inner_shadows_outer_witness :
  wf sample_state
  ∧ result (get_client_for 0 "gpt-x")
      (exec (model_registry_override_enter 0 {["gpt-x" := ClientHandle 4]})
         (exec (model_registry_override_enter 0 {["gpt-x" := ClientHandle 3]})
            sample_state))
    = Returned (Some (ClientHandle 4), false)
  ∧ result (get_client_for 0 "gpt-x")
      (exec (model_registry_override_exit 0)
         (exec (model_registry_override_enter 0 {["gpt-x" := ClientHandle 4]})
            (exec (model_registry_override_enter 0
                     {["gpt-x" := ClientHandle 3]}) sample_state)))
    = Returned (Some (ClientHandle 3), false).
Proof.
  assert (Hwf : wf sample_state) by check_wf.
  destruct (inner_shadows_outer 0 {["gpt-x" := ClientHandle 3]}
              {["gpt-x" := ClientHandle 4]} sample_state "gpt-x" Hwf)
    as (Hin & _ & Hout & _).
  split; [exact Hwf|]. split.
  - simpl in Hin. rewrite Hin. vm_compute. reflexivity.
  - simpl in Hout. rewrite Hout. vm_compute. reflexivity.
Defined.

(** ** Registration, continued *)

Lemma wf_register model_name client st :
  wf st → wf (exec (register_model model_name client) st).
Proof. intros Hwf. apply (wf_perform 0 (CallRegisterModel model_name client) st Hwf). Qed.

(** X3 (last write wins, other names untouched).  On a thread whose stack
    is empty, registering a name twice leaves the second client, and
    registering a name does not change what any other name resolves to. *)
Theorem register_last_write_wins tid n A B m st :
  wf st → thread_stack st tid = [] →
  result (get_client_for tid n)
    (exec (register_model n B) (exec (register_model n A) st))
  = Returned (Some B, false)
  ∧ (m ≠ n →
     result (get_client_for tid m) (exec (register_model n A) st)
     = result (get_client_for tid m) st).
Proof.
  intros Hwf Hnil. split.
  - apply resolve_after_register_global; [by apply wf_register|done].
  - intros Hne. rewrite !get_client_for_result.
    rewrite (register_effective_global n A st Hwf tid Hnil).
    unfold lookup_pair. by rewrite lookup_insert_ne.
Qed.

Lemma register_last_write_wins_witness :
  wf sample_state ∧ thread_stack sample_state 1 = [] ∧ "gpt-x" ≠ "claude"
  ∧ result (get_client_for 1 "claude")
      (exec (register_model "claude" (ClientHandle 4))
         (exec (register_model "claude" (ClientHandle 3)) sample_state))
    = Returned (Some (ClientHandle 4), false)
  ∧ result (get_client_for 1 "gpt-x")
      (exec (register_model "claude" (ClientHandle 3)) sample_state)
    = result (get_client_for 1 "gpt-x") sample_state.
Proof.
  assert (Hwf : wf sample_state) by check_wf.
  assert (Hnil : thread_stack sample_state 1 = []) by (vm_compute; reflexivity).
  assert (Hne : "gpt-x" ≠ "claude") by (vm_compute; discriminate).
  destruct (register_last_write_wins 1 "claude" (ClientHandle 3)
              (ClientHandle 4) "gpt-x" sample_state Hwf Hnil) as [Hlast Hother].
  split; [exact Hwf|]. split; [exact Hnil|]. split; [exact Hne|].
  split; [exact Hlast|exact (Hother Hne)].
Defined.



(** ** Stack discipline and isolation *)

Lemma exit_other_thread tid tid' st :
  tid ≠ tid' →
  _local (config (exec (model_registry_override_exit tid) st)) !! tid'
  = _local (config st) !! tid'.
Proof.
  intros Hne. unfold exec, model_registry_override_exit. py_simpl.
  destruct (_local (config st) !! tid) as [[|x stk]|]; simpl; try done.
  by rewrite lookup_insert_ne.
Qed.

Lemma exit_heap tid st :
  heap (exec (model_registry_override_exit tid) st) = heap st.
Proof.
  unfold exec, model_registry_override_exit. py_simpl.
  by destruct (_local (config st) !! tid) as [[|x stk]|].
Qed.

Lemma exit_fields tid st :
  registry (config (exec (model_registry_override_exit tid) st))
  = registry (config st)
  ∧ _default_openai_client (config (exec (model_registry_override_exit tid) st))
    = _default_openai_client (config st).
Proof.
  unfold exec, model_registry_override_exit. py_simpl.
  by destruct (_local (config st) !! tid) as [[|x stk]|].
Qed.

(** X5 (stack discipline).  A body made of calls and nested [with] blocks,
    with no [reset] and no half of the context manager called by hand,
    leaves the stack of its thread as it found it, whether it returns or
    raises and whether or not the thread had a stack before; it leaves every
    other thread's stack alone, and it keeps the state well formed. *)
Theorem stack_discipline tid b :
  plain b = true →
  ∀ st, wf st →
    wf (exec (run_body tid b) st)
    ∧ thread_stack (exec (run_body tid b) st) tid = thread_stack st tid
    ∧ ∀ tid', tid ≠ tid' →
        _local (config (exec (run_body tid b) st)) !! tid'
        = _local (config st) !! tid'.
Proof.
  induction b as [|e|c rest IH|overrides inner IHinner rest IHrest];
    simpl; intros Hplain st Hwf.
  - done.
  - done.
  - apply andb_prop in Hplain as [Hc Hrest].
    pose proof (wf_perform tid c st Hwf) as Hwf1.
    pose proof (plain_call_local tid c st Hc) as Hloc.
    unfold perform in Hwf1. rewrite exec_bind.
    destruct (result (invoke tid c) st) as [[]|e].
    + destruct (IH Hrest _ Hwf1) as (Hwf2 & Hstk & Hoth).
      split; [done|]. split.
      * rewrite Hstk. unfold thread_stack. by rewrite Hloc.
      * intros tid' Hne. rewrite (Hoth tid' Hne). by rewrite Hloc.
    + split; [done|]. split.
      * unfold thread_stack. by rewrite Hloc.
      * intros tid' _. by rewrite Hloc.
  - apply andb_prop in Hplain as [Hinner Hrest].
    destruct (plain_body_balanced tid inner Hinner (entered tid overrides st)
                (thread_stack st tid ++ [length (heap st)])) as [Hwf2 Hbal].
    { by apply wf_entered. }
    { apply entered_stack. }
    destruct (IHinner Hinner (entered tid overrides st)) as (_ & _ & Hoth2).
    { by apply wf_entered. }
    pose proof (scope_spec tid overrides (run_body tid inner) st Hbal) as Hscope.
    set (s3 := popped tid (thread_stack st tid)
                 (exec (run_body tid inner) (entered tid overrides st))) in *.
    assert (Hwf3 : wf s3) by (eapply wf_popped; [exact Hbal|exact Hwf2]).
    assert (Hr :
      result (model_registry_override tid overrides (run_body tid inner)) st
      = result (run_body tid inner) (entered tid overrides st)).
    { unfold result at 1. by rewrite Hscope. }
    assert (He :
      exec (model_registry_override tid overrides (run_body tid inner)) st = s3).
    { unfold exec at 1. by rewrite Hscope. }
    assert (Hstk3 : thread_stack s3 tid = thread_stack st tid)
      by apply popped_stack.
    assert (Hoth3 : ∀ tid', tid ≠ tid' →
              _local (config s3) !! tid' = _local (config st) !! tid').
    { intros tid' Hne. subst s3. simpl. rewrite lookup_insert_ne by done.
      rewrite (Hoth2 tid' Hne). by apply entered_stack_other. }
    rewrite exec_bind, Hr, He.
    destruct (result (run_body tid inner) (entered tid overrides st))
      as [[]|e].
    + destruct (IHrest Hrest s3 Hwf3) as (Hwf4 & Hstk4 & Hoth4).
      split; [done|]. split; [by rewrite Hstk4|].
      intros tid' Hne. rewrite (Hoth4 tid' Hne). by apply Hoth3.
    + done.
Qed.

Lemma stack_discipline_witness :
  plain nested_failing_body = true ∧ wf sample_state
  ∧ result (run_body 0 nested_failing_body) sample_state
    = Raised (UserException 2)
  ∧ thread_stack (exec (run_body 0 nested_failing_body) sample_state) 0
    = thread_stack sample_state 0.
Proof.
  assert (Hplain : plain nested_failing_body = true) by reflexivity.
  assert (Hwf : wf sample_state) by check_wf.
  destruct (stack_discipline 0 nested_failing_body Hplain sample_state Hwf)
    as (_ & Hstk & _).
  split; [exact Hplain|]. split; [exact Hwf|]. split; [|exact Hstk].
  vm_compute. reflexivity.
Defined.

(** X6 (thread isolation).  Entering a scope on one thread changes neither
    the stack of another thread nor what any name resolves to there, and
    neither does leaving a scope, whether the exit returns or raises. *)
Theorem override_isolated tid tid' overrides st m :
  tid ≠ tid' → wf st →
  (thread_stack (exec (model_registry_override_enter tid overrides) st) tid'
   = thread_stack st tid'
   ∧ result (get_client_for tid' m)
       (exec (model_registry_override_enter tid overrides) st)
     = result (get_client_for tid' m) st)
  ∧ (thread_stack (exec (model_registry_override_exit tid) st) tid'
     = thread_stack st tid'
     ∧ result (get_client_for tid' m) (exec (model_registry_override_exit tid) st)
       = result (get_client_for tid' m) st).
Proof.
  intros Hne Hwf. split.
  - rewrite exec_enter. by apply enter_isolated.
  - pose proof (exit_other_thread tid tid' st Hne) as Hoth.
    destruct (exit_fields tid st) as [Hreg Hdflt].
    split.
    + unfold thread_stack. by rewrite Hoth.
    + apply resolve_ext; [|done]. unfold effective, current_registry.
      by rewrite Hoth, Hreg, exit_heap.
Qed.

Lemma override_isolated_witness :
  0 ≠ 1 ∧ wf sample_state
  ∧ result (get_client_for 1 "gpt-x")
      (exec (model_registry_override_enter 0 {["gpt-x" := ClientHandle 7]})
         sample_state)
    = result (get_client_for 1 "gpt-x") sample_state
  ∧ result (get_client_for 1 "b")
      (exec (model_registry_override_exit 0) sample_state)
    = result (get_client_for 1 "b") sample_state.
Proof.
  assert (Hne : 0 ≠ 1) by lia.
  assert (Hwf : wf sample_state) by check_wf.
  split; [exact Hne|]. split; [exact Hwf|]. split.
  - apply (override_isolated 0 1 {["gpt-x" := ClientHandle 7]} sample_state
             "gpt-x" Hne Hwf).
  - apply (override_isolated 0 1 ∅ sample_state "b" Hne Hwf).
Defined.

(** ** Reset, continued *)

Lemma scope_unfold {A} tid overrides (body : Py A) st :
  model_registry_override tid overrides body st
  = try_finally body (model_registry_override_exit tid)
      (entered tid overrides st).
Proof. unfold model_registry_override. py_simpl. by rewrite enter_spec. Qed.

Lemma run_bind {A B} (m : Py A) (k : A → Py B) st :
  (x ← m; k x) st
  = match m st with
    | (Returned a, s) => k a s
    | (Raised e, s) => (Raised e, s)
    end.
Proof. done. Qed.

(** X7 (a reset during a scope breaks its exit).  A [with
    model_registry_override] block during which [reset] is called, by any
    thread, raises [AttributeError] from its [finally] clause, whatever the
    state and the overrides; when a further block is entered and left after
    the reset, the outer exit finds an empty list and raises [IndexError]. *)
Theorem reset_inside_scope tid tid' overrides overrides' st :
  result (model_registry_override tid overrides (reset tid')) st
  = Raised AttributeError
  ∧ result (model_registry_override tid overrides
              (reset tid';; model_registry_override tid overrides' (mret tt)))
      st
    = Raised IndexError.
Proof.
  unfold result. rewrite !scope_unfold. unfold try_finally.
  rewrite run_bind, !reset_spec. split.
  - unfold model_registry_override_exit. py_simpl. by rewrite lookup_empty.
  - set (s := {| heap := _; config := _; logged := _ |}).
    assert (Hin : _local (config (exec (mret tt : Py unit)
                                    (entered tid overrides' s))) !! tid
                  = Some (thread_stack s tid ++ [length (heap s)])).
    { apply entered_stack. }
    rewrite (scope_spec tid overrides' (mret tt) s Hin). simpl.
    unfold model_registry_override_exit. py_simpl.
    rewrite (lookup_insert_eq (<[tid:=_]> _)).
    unfold thread_stack. subst s. simpl. by rewrite lookup_empty.
Qed.

(** X8 (reset forgets every registration).  After [reset], called by any
    thread in any state, every name falls back on every thread; a model
    registered after the reset is resolved on every thread. *)
Theorem reset_forgets_registrations tid tid' m A st :
  (∃ c, result (get_client_for tid m) (exec (reset tid') st)
        = Returned (c, true))
  ∧ result (get_client_for tid m)
      (exec (register_model m A) (exec (reset tid') st))
    = Returned (Some A, false).
Proof.
  rewrite exec_reset. split.
  - eexists. rewrite get_client_for_result. unfold effective, current_registry.
    simpl. rewrite lookup_empty. simpl. rewrite dict_at_app_new.
    unfold lookup_pair. by rewrite lookup_empty.
  - rewrite get_client_for_result, exec_register. unfold effective,
      current_registry. simpl. rewrite lookup_empty. simpl.
    unfold dict_at at 1. rewrite list_lookup_insert_eq.
    + simpl. unfold lookup_pair. by rewrite (lookup_insert_eq (M:=gmap string)).
    + rewrite length_app. simpl. lia.
Qed.

(** ** The settings *)

(** X9 ([init] is idempotent).  Calling [init] twice with the same arguments
    leaves the state that one call leaves, whatever the arguments and the
    state before. *)
Theorem init_idempotent call st :
  exec (init call) (exec (init call) st) = exec (init call) st.
Proof.
  rewrite !init_spec. destruct call as [s v a lz p sp dc]. simpl.
  destruct s as [[path|obj]|], p as [p|], sp as [sp|]; unfold exec; simpl;
    try rewrite orb_assoc, orb_diag; reflexivity.
Qed.



Lemma settings_call_frame tid c st :
  settings_call c = true →
  heap (exec (invoke tid c) st) = heap st
  ∧ registry (config (exec (invoke tid c) st)) = registry (config st)
  ∧ _local (config (exec (invoke tid c) st)) = _local (config st)
  ∧ _default_openai_client (config (exec (invoke tid c) st))
    = _default_openai_client (config st).
Proof.
  destruct c; simpl; try discriminate; intros _.
  - by rewrite exec_discard, get_client_for_heap, get_client_for_config.
  - by destruct store.
  - done.
  - done.
  - done.
  - rewrite init_spec. destruct call as [s v a lz p sp dc]. simpl.
    destruct s as [[]|], p, sp; done.
Qed.

(** X12 (settings do not touch resolution).  [set_store],
    [set_default_lm_params], [set_default_system_prompt],
    [set_default_client], [init] and [get_client_for] itself, called by any
    thread and whether they return or raise, leave every thread's stack and
    the pair that [get_client_for] returns for every name on every thread as
    they were. *)
Theorem settings_keep_resolution tid tid' c m st :
  settings_call c = true →
  thread_stack (exec (invoke tid c) st) tid' = thread_stack st tid'
  ∧ result (get_client_for tid' m) (exec (invoke tid c) st)
    = result (get_client_for tid' m) st.
Proof.
  intros Hc.
  destruct (settings_call_frame tid c st Hc) as (Hheap & Hreg & Hloc & Hdflt).
  split.
  - unfold thread_stack. by rewrite Hloc.
  - apply resolve_ext; [|done]. unfold effective, current_registry.
    by rewrite Hheap, Hreg, Hloc.
Qed.

Lemma settings_keep_resolution_witness :
  settings_call (CallInit init_default_client) = true
  ∧ result (get_client_for 0 "b")
      (exec (invoke 1 (CallInit init_default_client)) sample_state)
    = result (get_client_for 0 "b") sample_state.
Proof.
  split; [reflexivity|].
  apply (settings_keep_resolution 1 0 (CallInit init_default_client) "b"
           sample_state).
  reflexivity.
Defined.

(** ** Resolving several names *)

Lemma get_client_for_effective tid tid' n st :
  effective (exec (get_client_for tid n) st) tid' = effective st tid'.
Proof.
  unfold effective, current_registry.
  by rewrite get_client_for_heap, get_client_for_config.
Qed.

(** X13 (resolving a list of names).  Resolving names one after the other on
    a thread returns, for each name, the pair that resolving it alone
    returns; it never raises, changes neither the configuration nor any
    dictionary, and hands the logger one record for each name that falls
    back and none for the others. *)
Theorem resolve_all_spec tid names st :
  result (resolve_all tid names) st
  = Returned
      (map (lookup_pair (effective st tid) (_default_openai_client (config st)))
         names)
  ∧ heap (exec (resolve_all tid names) st) = heap st
  ∧ config (exec (resolve_all tid names) st) = config st
  ∧ length (logged (exec (resolve_all tid names) st))
    = length (logged st)
      + length (filter (λ n, effective st tid !! n = None) names).
Proof.
  revert st. induction names as [|n names IH]; intros st; simpl.
  - repeat split. unfold exec. simpl. lia.
  - destruct (IH (exec (get_client_for tid n) st)) as (Hres & Hheap & Hcfg & Hlog).
    pose proof (get_client_for_result tid n st) as Hn.
    rewrite get_client_for_effective, get_client_for_config in Hres.
    rewrite get_client_for_effective in Hlog.
    assert (Hrun : resolve_all tid (n :: names) st
      = (Returned (lookup_pair (effective st tid)
                     (_default_openai_client (config st)) n
                   :: map (lookup_pair (effective st tid)
                            (_default_openai_client (config st))) names),
         exec (resolve_all tid names) (exec (get_client_for tid n) st))).
    { simpl. rewrite run_bind. unfold result, exec in *.
      destruct (get_client_for tid n st) as [o s1]. simpl in *. subst o.
      rewrite run_bind.
      destruct (resolve_all tid names s1) as [o2 s2]. simpl in *. by subst o2. }
    unfold result, exec at 1 2 3. simpl in Hrun. simpl. rewrite Hrun. simpl.
    split; [done|].
    split; [by rewrite Hheap, get_client_for_heap|].
    split; [by rewrite Hcfg, get_client_for_config|].
    rewrite Hlog, get_client_for_logged, length_app.
    rewrite filter_cons.
    destruct (effective st tid !! n) as [c|] eqn:Hlook.
    + rewrite decide_False by done. simpl. lia.
    + rewrite decide_True by done. simpl. lia.
Qed.

(** ** The invariant on reachable states *)

(** X14 (a frame is never the registry object).  In every state reached by
    calls of the methods, in any order and by any threads, every frame on
    every thread's stack is an allocated dictionary object other than the
    registry object, and the registry object is allocated: the in-place
    write of [register_model] can reach no frame. *)
Theorem frames_never_alias_registry st tid stk l :
  reachable st → _local (config st) !! tid = Some stk → l ∈ stk →
  l ≠ registry (config st)
  ∧ is_Some (heap st !! l)
  ∧ is_Some (heap st !! registry (config st)).
Proof.
  intros Hreach Hstk Hl. pose proof (reachable_wf st Hreach) as Hwf.
  destruct (wf_frames st tid stk l Hwf Hstk Hl) as [Hlt Hne].
  split; [done|]. split; apply lookup_lt_is_Some; [done|apply Hwf].
Qed.

Lemma frames_never_alias_registry_witness :
  reachable sample_state
  ∧ _local (config sample_state) !! 0 = Some [1] ∧ 1 ∈ [1]
  ∧ 1 ≠ registry (config sample_state).
Proof.
  assert (Hreach : reachable sample_state) by (by eexists).
  assert (Hstk : _local (config sample_state) !! 0 = Some [1])
    by (vm_compute; reflexivity).
  assert (Hin : 1 ∈ [1]) by (apply list_elem_of_singleton; reflexivity).
  split; [exact Hreach|]. split; [exact Hstk|]. split; [exact Hin|].
  apply (frames_never_alias_registry sample_state 0 [1] 1 Hreach Hstk Hin).
Defined.

(** ** Names that were never bound *)

Lemma dict_at_lacks (h : list (gmap string Client)) n l :
  Forall (λ d, d !! n = None) h → dict_at h l !! n = None.
Proof.
  intros Hall. unfold dict_at.
  destruct (h !! l) as [d|] eqn:Hl; simpl; [|done].
  rewrite Forall_forall in Hall. apply Hall.
  apply list_elem_of_lookup. by exists l.
Qed.

Lemma unbound_perform n tid c st :
  binds n c = false → unbound n st → unbound n (perform tid c st).
Proof.
  intros Hc [Hall Hdflt]. unfold perform, unbound.
  destruct c; simpl in Hc; cbn [invoke].
  - apply bool_decide_eq_false in Hc. rewrite exec_register. simpl.
    split; [|done]. apply Forall_insert; [done|].
    rewrite lookup_insert_ne by done. by apply dict_at_lacks.
  - apply bool_decide_eq_false in Hc.
    assert (Hov : overrides !! n = None).
    { destruct (overrides !! n) eqn:E; [|done]. destruct Hc. by eexists. }
    simpl. rewrite exec_enter. simpl. split; [|done].
    apply Forall_app. split; [done|]. apply Forall_singleton.
    rewrite lookup_union_r by done. by apply dict_at_lacks.
  - simpl. rewrite exit_heap. by destruct (exit_fields tid st) as [_ ->].
  - simpl. by rewrite exec_discard, get_client_for_heap, get_client_for_config.
  - simpl. rewrite exec_reset. simpl. split; [|done].
    apply Forall_app. split; [done|]. by apply Forall_singleton.
  - destruct (settings_call_frame tid (CallSetStore store autocommit_arg) st)
      as (Hh & _ & _ & Hd); [done|]. cbn [invoke] in Hh, Hd.
    by rewrite Hh, Hd.
  - done.
  - done.
  - done.
  - destruct (settings_call_frame tid (CallInit call) st)
      as (Hh & _ & _ & Hd); [done|]. cbn [invoke] in Hh, Hd.
    by rewrite Hh, Hd.
Qed.

Lemma unbound_run n trace st :
  Forall (λ step, binds n step.2 = false) trace →
  unbound n st → unbound n (run trace st).
Proof.
  revert st. induction trace as [|[tid c] trace IH]; intros st Hall Hst; [done|].
  apply Forall_cons in Hall as [Hc Hall]. simpl.
  apply IH; [done|]. by apply unbound_perform.
Qed.

(** X15 (a name that was never bound falls back).  After any sequence of
    calls by any threads, starting from a new [Config], in which the name
    was neither registered nor among the overrides of a scope,
    [get_client_for] returns [(None, True)] for it on every thread. *)
Theorem unbound_name_falls_back n tid trace :
  Forall (λ step, binds n step.2 = false) trace →
  result (get_client_for tid n) (run trace initial) = Returned (None, true).
Proof.
  intros Hall.
  destruct (unbound_run n trace initial Hall) as [Hheap Hdflt].
  { split; [|done]. simpl. apply Forall_singleton, lookup_empty. }
  rewrite get_client_for_result. unfold lookup_pair, effective.
  by rewrite (dict_at_lacks _ n _ Hheap), Hdflt.
Qed.

Lemma unbound_name_falls_back_witness :
  result (get_client_for 1 "claude") sample_state = Returned (None, true).
Proof.
  apply (unbound_name_falls_back "claude" 1
           [(0, CallRegisterModel "gpt-x" (ClientHandle 1));
            (0, CallEnterOverride {["b" := ClientHandle 9]});
            (1, CallEnterOverride {["gpt-x" := ClientHandle 5]});
            (1, CallExitOverride)]).
  repeat constructor.
Defined.

Lemma default_client_run trace st :
  _default_openai_client (config st) = None →
  _default_openai_client (config (run trace st)) = None.
Proof.
  revert st. induction trace as [|[tid c] trace IH]; intros st Hst; [done|].
  simpl. apply IH. unfold perform. destruct c; cbn [invoke]; try done.
  - by rewrite exec_enter.
  - by destruct (exit_fields tid st) as [_ ->].
  - by rewrite exec_discard, get_client_for_config.
  - destruct (settings_call_frame tid (CallSetStore store autocommit_arg) st)
      as (_ & _ & _ & Hd); [done|]. cbn [invoke] in Hd. by rewrite Hd.
  - destruct (settings_call_frame tid (CallInit call) st)
      as (_ & _ & _ & Hd); [done|]. cbn [invoke] in Hd. by rewrite Hd.
Qed.

(** X16 (the fallback client stays unset).  No sequence of calls of the
    methods of [Config] and of [init] gives the configuration a default
    client: in every reachable state [_default_openai_client] is [None], so
    every fallback returns [(None, True)]. *)
Theorem default_client_stays_unset st tid m :
  reachable st →
  _default_openai_client (config st) = None
  ∧ (effective st tid !! m = None →
     result (get_client_for tid m) st = Returned (None, true)).
Proof.
  intros [trace ->].
  assert (Hnone : _default_openai_client (config (run trace initial)) = None)
    by by apply default_client_run.
  split; [done|]. intros Hm.
  rewrite get_client_for_result. unfold lookup_pair. by rewrite Hm, Hnone.
Qed.

Lemma default_client_stays_unset_witness :
  reachable
    (run [(0, CallSetDefaultClient (ClientHandle 7));
          (0, CallInit init_default_client)] initial)
  ∧ effective
      (run [(0, CallSetDefaultClient (ClientHandle 7));
            (0, CallInit init_default_client)] initial) 0 !! "gpt-x" = None
  ∧ result (get_client_for 0 "gpt-x")
      (run [(0, CallSetDefaultClient (ClientHandle 7));
            (0, CallInit init_default_client)] initial)
    = Returned (None, true).
Proof.
  assert (Hreach : reachable
            (run [(0, CallSetDefaultClient (ClientHandle 7));
                  (0, CallInit init_default_client)] initial))
    by (by eexists).
  assert (Hm : effective
            (run [(0, CallSetDefaultClient (ClientHandle 7));
                  (0, CallInit init_default_client)] initial) 0 !! "gpt-x"
          = None) by (vm_compute; reflexivity).
  split; [exact Hreach|]. split; [exact Hm|].
  destruct (default_client_stays_unset _ 0 "gpt-x" Hreach) as [_ Hfb].
  exact (Hfb Hm).
Defined.
